(** * Progress-streaming protocol of bin/server.js

    A shallow embedding of the two request handlers of [bin/server.js]
    (POST /conversation/:conversationID and
    GET /conversation/:conversationID/:nextID) together with the
    [onProgress] closure that records streamed tokens, over an explicit
    model of the conversation key-value store.

    Conventions.
    - JavaScript numbers that the handlers manipulate (token indices, array
      positions, status codes, epoch times) are integers; they are modelled
      as [Z].
    - An object property that may be missing is an [option]; [None] is
      JavaScript's [undefined].
    - Asynchronous calls are run to completion one after the other: the
      embedding is the sequential reading of the handlers, store operations
      are threaded through a small state monad. *)

From stdpp Require Import gmap strings list sorting.
From Stdlib Require Import ZArith Lia Ascii.

Local Open Scope Z_scope.

(** ** Data model *)

(** A JSON value: the provider's response is an opaque payload of this
    shape. *)
#[warnings="-register-all"]
Inductive json : Type :=
  | JNull
  | JBool (b : bool)
  | JNum (z : Z)
  | JStr (s : string)
  | JArr (items : list json)
  | JObj (fields : list (string * json)).

(** One element of [tokens]: the object [{ index, token }]. *)
Record entry : Type := Entry { index : Z; token : string }.

(** The [error] property: [false] in a fresh record, or the object
    [{ code, error: message }] of the failure branch. *)
Inductive error_field : Type :=
  | ErrFalse
  | ErrInfo (code : Z) (msg : string).

(** The [result] property: [false] in a fresh record, or the provider's
    response. *)
Inductive result_field : Type :=
  | ResFalse
  | ResValue (payload : json).

(** The properties of a stored conversation, and equally the object literal
    handed to [conversationKV.set]: a property that the literal does not
    name is [None]. *)
Record props : Type := Props {
  tokens : option (list entry);
  done : option bool;
  error : option error_field;
  result : option result_field;
  ttl : option Z
}.

Definition no_props : props :=
  {| tokens := None; done := None; error := None; result := None;
     ttl := None |}.

(** JavaScript truthiness of the two properties the reader branches on. *)
Definition truthy_error (e : option error_field) : bool :=
  match e with
  | Some (ErrInfo _ _) => true
  | Some ErrFalse | None => false
  end.

Definition truthy_done (d : option bool) : bool :=
  match d with
  | Some b => b
  | None => false
  end.

(** A record is terminal once [error] or [done] is truthy. *)
Definition terminal (r : props) : bool :=
  truthy_error (error r) || truthy_done (done r).

(** ** The conversation store *)

(** Store calls, in the order in which they are issued. *)
Inductive op : Type :=
  | OpGet (key : string)
  | OpSet (key : string) (patch : props).

Record world : Type := World {
  kv : gmap string props;
  ops : list op
}.

(** Modelled from the spec: the collection object of the external
    key-value store ([conversationKV], package [@cyclic.sh/dynamodb]) is not
    part of this repository. [get] returns the stored properties or nothing;
    [set] writes the properties it is given and leaves every property it is
    not given as stored ("write back only the token list ..., preserving the
    original ttl"; the source says "only update tokens"). *)
Definition upsert (old patch : props) : props :=
  {| tokens := match tokens patch with Some v => Some v | None => tokens old end;
     done := match done patch with Some v => Some v | None => done old end;
     error := match error patch with Some v => Some v | None => error old end;
     result := match result patch with Some v => Some v | None => result old end;
     ttl := match ttl patch with Some v => Some v | None => ttl old end |}.

(** ** Outcomes and the handler monad *)

Inductive exn : Type :=
  | TypeError.

(** A call returns, throws, or is still waiting on a promise that no later
    step resolves. *)
Inductive outcome (A : Type) : Type :=
  | Ret (a : A)
  | Throw (e : exn)
  | Waiting.
Arguments Ret {A} a.
Arguments Throw {A} e.
Arguments Waiting {A}.

Definition M (A : Type) : Type := world → outcome A * world.

Definition ret {A} (a : A) : M A := λ w, (Ret a, w).
Definition throw {A} (e : exn) : M A := λ w, (Throw e, w).
Definition hang {A} : M A := λ w, (Waiting, w).

Definition bind {A B} (m : M A) (k : A → M B) : M B :=
  λ w, match m w with
       | (Ret a, w') => k a w'
       | (Throw e, w') => (Throw e, w')
       | (Waiting, w') => (Waiting, w')
       end.

Notation "'let!' x ':=' m 'in' k" := (bind m (λ x, k))
  (at level 10, x name, m at level 100, k at level 200,
   format "'[v' 'let!'  x  ':='  m  'in'  '/' k ']'").

Definition conversationKV_get (key : string) : M (option props) :=
  λ w, (Ret (kv w !! key), {| kv := kv w; ops := ops w ++ [OpGet key] |}).

Definition conversationKV_set (key : string) (patch : props) : M unit :=
  λ w, (Ret (),
        {| kv := <[key := upsert (default no_props (kv w !! key)) patch]> (kv w);
           ops := ops w ++ [OpSet key patch] |}).

(** ** Array helpers of the reader *)

(** [tokens.sort((a, b) => a.index - b.index)]: the stable ascending sort by
    [index], as a stable insertion sort. *)
Fixpoint insert_by_index (x : entry) (l : list entry) : list entry :=
  match l with
  | [] => [x]
  | y :: l' =>
      if index x <=? index y then x :: y :: l'
      else y :: insert_by_index x l'
  end.

Definition sort_by_index (l : list entry) : list entry :=
  foldr insert_by_index [] l.

(** [tokens[index]] for a numeric [index]: [undefined] outside the array. *)
Definition array_get (l : list entry) (i : Z) : option entry :=
  if i <? 0 then None else l !! Z.to_nat i.

(** The loop
    [for (let index = nextID; index < end; index++) data += tokens[index].token].
    [fuel] bounds the number of iterations; [None] is fuel exhausted. Reading
    [.token] of [undefined] throws. *)
Fixpoint for_loop (fuel : nat) (toks : list entry) (end_ : Z)
    (i : Z) (data : string) : option (outcome string) :=
  if i <? end_ then
    match fuel with
    | O => None
    | S fuel' =>
        match array_get toks i with
        | None => Some (Throw TypeError)
        | Some e => for_loop fuel' toks end_ (i + 1) (data +:+ token e)
        end
    end
  else Some (Ret data).

(** The loop with as much fuel as it can use, [end - nextID] iterations;
    [for_loop_fuel] below shows that this fuel never runs out. *)
Definition concat_from (toks : list entry) (end_ : Z) (nextID : Z) : outcome string :=
  match for_loop (Z.to_nat (end_ - nextID)) toks end_ nextID "" with
  | Some o => o
  | None => Waiting
  end.

(** ** GET /conversation/:conversationID/:nextID *)

(** The object passed to [reply.send]. The [data] of the two events is the
    value given to [JSON.stringify]. *)
Inductive reply : Type :=
  | ErrorEvent (data : error_field)
  | ResultEvent (data : option result_field)
  | Partial (id : Z) (data : string).

Definition not_found : error_field :=
  ErrInfo 404 "conversationID not Found!".

(** [nextID_param] is the route parameter [nextID] read as a number, [None]
    when the parameter is [undefined]; the destructuring default makes it 0
    then. *)
Definition get_handler (conversationID : string) (nextID_param : option Z) : M reply :=
  let nextID := default 0 nextID_param in
  let! conversation := conversationKV_get conversationID in
  match conversation with
  | None => ret (ErrorEvent not_found)
  | Some p =>
      match error p with
      | Some (ErrInfo c m) => ret (ErrorEvent (ErrInfo c m))
      | _ =>
          if truthy_done (done p) then ret (ResultEvent (result p))
          else
            match tokens p with
            | None => throw TypeError
            | Some toks =>
                let end_ := Z.of_nat (length toks) in
                let sorted := sort_by_index toks in
                match concat_from sorted end_ nextID with
                | Ret data => ret (Partial end_ data)
                | Throw e => throw e
                | Waiting => hang
                end
            end
      end
  end.

(** ** POST /conversation/:conversationID *)

(** The request body, as far as the handler itself inspects it: [stream] is
    the test [body.stream === true]; the remaining properties are only
    forwarded to the provider. *)
Record body : Type := Body {
  stream : bool;
  message : option string
}.

(** An exception value with its optional [data] object. *)
Record err_data : Type := ErrData {
  err_code : option Z;
  err_message : option string
}.

Record js_error : Type := JsError { data : option err_data }.

(** The variables [conversationStart] and [conversationCount] that the
    [onProgress] closure captures. *)
Record closure : Type := Closure {
  conversationStart : bool;
  conversationCount : Z
}.

Definition fresh_closure : closure :=
  {| conversationStart := true; conversationCount := 0 |}.

(** [waitConversationKV(ms)]: every tick of the interval reads the store
    again and the promise resolves with the first conversation found. No
    other writer runs during the wait, so every tick reads what the first
    one read: the promise resolves at the first tick or never. *)
Definition waitConversationKV (conversationID : string) : M props :=
  let! conversation := conversationKV_get conversationID in
  match conversation with
  | Some c => ret c
  | None => hang
  end.

(** [onProgress(token)], with [now] the value of [Date.now()]. *)
Definition onProgress (conversationID : string) (now : Z) (tok : string)
    (c : closure) : M closure :=
  let count := conversationCount c + 1 in
  let c' := {| conversationStart := false; conversationCount := count |} in
  if conversationStart c then
    let conversation :=
      {| tokens := Some [Entry count tok];
         done := Some false;
         error := Some ErrFalse;
         result := Some ResFalse;
         ttl := Some (now / 1000 + 10 * 60) |} in
    let! _ := conversationKV_set conversationID conversation in
    ret c'
  else
    let! conversation := waitConversationKV conversationID in
    match tokens conversation with
    | None => throw TypeError
    | Some toks =>
        let toks' := toks ++ [Entry count tok] in
        let! _ := conversationKV_set conversationID
                    {| tokens := Some toks'; done := None; error := None;
                       result := None; ttl := None |} in
        ret c'
    end.

(** How one call of the provider goes: the tokens it reports, each with the
    clock reading at that moment, and how the call settles. *)
Inductive settled : Type :=
  | Resolves (result : option json)
  | Rejects (e : js_error).

Record provider_run : Type := ProviderRun {
  progress : list (Z * string);
  settles : settled
}.

(** The tokens are handed to the callback one at a time, each call running
    to completion before the next. *)
Fixpoint feed (callback : Z → string → closure → M closure)
    (events : list (Z * string)) (c : closure) : M closure :=
  match events with
  | [] => ret c
  | (now, tok) :: rest =>
      let! c' := callback now tok c in
      feed callback rest c'
  end.

(** Modelled from the spec: the provider clients ([src/ChatGPTClient.js],
    [src/BingAIClient.js]) are missing; [sendMessage] "invokes onProgress
    zero or more times before the call resolves or raises". A callback that
    throws makes the call raise an error without [data]. *)
Definition sendMessage (run : provider_run)
    (callback : option (Z → string → closure → M closure)) : M settled :=
  match callback with
  | None => ret (settles run)
  | Some f =>
      λ w, match feed f (progress run) fresh_closure w with
           | (Ret _, w') => (Ret (settles run), w')
           | (Throw _, w') => (Ret (Rejects {| data := None |}), w')
           | (Waiting, w') => (Waiting, w')
           end
  end.

(** [!body.message] *)
Definition missing (m : option string) : bool :=
  match m with
  | None => true
  | Some s => bool_decide (s = "")
  end.

(** [v || d] on an optional number and on an optional string. *)
Definition or_code (v : option Z) (d : Z) : Z :=
  match v with
  | Some c => if c =? 0 then d else c
  | None => d
  end.

Definition or_message (v : option string) (d : string) : string :=
  match v with
  | Some s => if bool_decide (s = "") then d else s
  | None => d
  end.

Definition invalidError : js_error :=
  {| data := Some {| err_code := Some 400;
                     err_message := Some "The message parameter is required." |} |}.

(** What the handler does with [reply]. *)
Inductive http_reply : Type :=
  | RawEnd
  | Send (result : json)
  | CodeSend (code : Z) (error_message : string).

Definition communication_error (clientToUse : string) : string :=
  "There was an error communicating with "
  +:+ (if bool_decide (clientToUse = "bing") then "Bing" else "ChatGPT") +:+ ".".

Definition post_handler (clientToUse : string) (client : string → provider_run)
    (conversationID : string) (b : body) : M http_reply :=
  let callback := if stream b then Some (onProgress conversationID) else None in
  let! attempt :=
    (if missing (message b) then ret (Rejects invalidError)
     else sendMessage (client (default "" (message b))) callback) in
  match attempt with
  | Resolves (Some result) =>
      if stream b then
        let! _ := conversationKV_set conversationID
                    {| tokens := None; done := Some true; error := None;
                       result := Some (ResValue result); ttl := None |} in
        ret RawEnd
      else ret (Send result)
  | _ =>
      let d := match attempt with Rejects e => data e | Resolves _ => None end in
      let code := or_code (d ≫= err_code) 503 in
      let msg := or_message (d ≫= err_message) (communication_error clientToUse) in
      if stream b then
        let! _ := conversationKV_set conversationID
                    {| tokens := None; done := None;
                       error := Some (ErrInfo code msg);
                       result := None; ttl := None |} in
        ret RawEnd
      else ret (CodeSend code msg)
  end.

(** ** Start-up: settings path, storage directory, client choice *)

(** [s.split(sep)] for a separator of one character. *)
Fixpoint split_on (sep : Ascii.ascii) (s : string) : list string :=
  match s with
  | EmptyString => [""]
  | String c s' =>
      if Ascii.eqb c sep then "" :: split_on sep s'
      else match split_on sep s' with
           | h :: t => String c h :: t
           | [] => [String c ""]
           end
  end.

(** [l.join(sep)] *)
Fixpoint join (sep : string) (l : list string) : string :=
  match l with
  | [] => ""
  | x :: l' =>
      match l' with
      | [] => x
      | _ :: _ => x +:+ sep +:+ join sep l'
      end
  end.

(** Whether the character occurs in the string. *)
Fixpoint has_char (c : Ascii.ascii) (s : string) : bool :=
  match s with
  | EmptyString => false
  | String a s' => Ascii.eqb a c || has_char c s'
  end.

(** The variable [path]: the first argument that starts with
    [--settings], split at ['='], element 1 ([undefined] when there is
    none); ['./settings.js'] when no argument starts so. *)
Definition settings_path (argv : list string) : option string :=
  match List.find (String.prefix "--settings") argv with
  | Some arg => split_on "="%char arg !! 1%nat
  | None => Some "./settings.js"
  end.

(** [settings.storageFilePath.split('/').slice(0, -1).join('/')] *)
Definition storage_dir (storageFilePath : string) : string :=
  join "/" (removelast (split_on "/"%char storageFilePath)).

(** The settings that choose the client: [settings.apiOptions?.clientToUse]
    and [settings.clientToUse]. *)
Record settings : Type := Settings {
  apiOptions_clientToUse : option string;
  settings_clientToUse : option string
}.

(** [settings.apiOptions?.clientToUse || settings.clientToUse || 'chatgpt'] *)
Definition clientToUse (s : settings) : string :=
  or_message (apiOptions_clientToUse s)
    (or_message (settings_clientToUse s) "chatgpt").

(** The class that the [switch] instantiates. *)
Inductive client_class : Type :=
  | BingAIClient
  | ChatGPTClient.

Definition client (s : settings) : client_class :=
  if bool_decide (clientToUse s = "bing") then BingAIClient else ChatGPTClient.

(** ** Vocabulary of the statements *)

(** The text obtained by appending the [token] of every entry, first to
    last. *)
Definition text_of (l : list entry) : string :=
  foldr (λ e s, token e +:+ s) "" l.

(** The text obtained by appending strings, first to last. *)
Definition concat_strings (l : list string) : string :=
  foldr String.append "" l.

Definition index_le (a b : entry) : Prop := index a ≤ index b.

(** The world after one more store call has been issued. *)
Definition logged (o : op) (w : world) : world :=
  {| kv := kv w; ops := ops w ++ [o] |}.

(** A record with its token list replaced and nothing else changed. *)
Definition with_tokens (r : props) (toks : list entry) : props :=
  {| tokens := Some toks; done := done r; error := error r;
     result := result r; ttl := ttl r |}.

(** The object literal that names [tokens] only. *)
Definition only_tokens (toks : list entry) : props :=
  {| tokens := Some toks; done := None; error := None; result := None;
     ttl := None |}.

(** The object literal that names [error] only. *)
Definition only_error (e : error_field) : props :=
  {| tokens := None; done := None; error := Some e; result := None;
     ttl := None |}.

(** The record that the first token of a conversation creates. *)
Definition first_record (now : Z) (tok : string) : props :=
  {| tokens := Some [Entry 1 tok]; done := Some false;
     error := Some ErrFalse; result := Some ResFalse;
     ttl := Some (now / 1000 + 600) |}.

(** Token strings numbered [i], [i + 1], ... in order. *)
Fixpoint number_from (i : Z) (l : list string) : list entry :=
  match l with
  | [] => []
  | t :: l' => Entry i t :: number_from (i + 1) l'
  end.

(** The partial text in the words of the specification: "the token text
    for all entries with index ≥ lastIndex", in index order. *)
Definition spec_partial_text (toks : list entry) (lastIndex : Z) : string :=
  text_of (filter (λ e, lastIndex ≤ index e) (sort_by_index toks)).

(** The entries whose index lies strictly above [k], in index order. *)
Definition above (k : Z) (toks : list entry) : list entry :=
  filter (λ e, k < index e) (sort_by_index toks).

(** ** Sample data *)

Definition empty_world : world := {| kv := ∅; ops := [] |}.

(** A world whose store holds [r] under the conversation id ["c"]. *)
Definition world_with (r : props) : world :=
  {| kv := {[ "c" := r ]}; ops := [] |}.

(** Scenario A of the specification: the tokens "Hel" and "lo". *)
Definition hello_events : list (Z * string) :=
  [(1700000000123, "Hel"); (1700000000456, "lo")].

Definition hello_record : props :=
  with_tokens (first_record 1700000000123 "Hel")
    [Entry 1 "Hel"; Entry 2 "lo"].

(** A record with the single token "a", and four tokens that follow it. *)
Definition one_token_record : props := first_record 0 "a".

Definition four_more : list (Z * string) :=
  [(0, "b"); (0, "c"); (0, "d"); (0, "e")].

Definition after_one : closure :=
  {| conversationStart := false; conversationCount := 1 |}.

(** A provider that reports one token and then raises an error that
    carries [data]. *)
Definition failing_client (d : option err_data) : string → provider_run :=
  λ _, {| progress := [(1700000000123, "Hel")];
          settles := Rejects {| data := d |} |}.

(** A provider that reports the two tokens of scenario A and resolves. *)
Definition hello_client : string → provider_run :=
  λ _, {| progress := hello_events;
          settles := Resolves (Some (JStr "Hello")) |}.

(** A record that ended in an error. *)
Definition failed_record : props :=
  Props (Some [Entry 1 "Hel"]) (Some false) (Some (ErrInfo 503 "x"))
    (Some ResFalse) (Some 1700000600).

(** * Properties *)

(** ** Text of a token list *)

Lemma append_String (a : Ascii.ascii) (s t : string) :
  String a s +:+ t = String a (s +:+ t).
Proof. reflexivity. Qed.

Lemma append_empty_r (s : string) : s +:+ "" = s.
Proof.
  induction s as [|a s IH]; [reflexivity|].
  now rewrite append_String, IH.
Qed.

Lemma append_assoc (s1 s2 s3 : string) : (s1 +:+ s2) +:+ s3 = s1 +:+ s2 +:+ s3.
Proof.
  induction s1 as [|a s1 IH]; [reflexivity|].
  now rewrite !append_String, IH.
Qed.

Lemma text_of_app (l1 l2 : list entry) :
  text_of (l1 ++ l2) = text_of l1 +:+ text_of l2.
Proof.
  induction l1 as [|e l1 IH]; simpl; [reflexivity|].
  now rewrite IH, append_assoc.
Qed.

(** ** The sort *)

Lemma insert_by_index_perm (x : entry) (l : list entry) :
  insert_by_index x l ≡ₚ x :: l.
Proof.
  induction l as [|y l IH]; simpl; [reflexivity|].
  destruct (index x <=? index y); [reflexivity|].
  rewrite IH. apply Permutation_swap.
Qed.

Lemma sort_by_index_perm (l : list entry) : sort_by_index l ≡ₚ l.
Proof.
  induction l as [|x l IH]; simpl; [reflexivity|].
  now rewrite insert_by_index_perm, IH.
Qed.

Lemma sort_by_index_length (l : list entry) :
  length (sort_by_index l) = length l.
Proof. apply Permutation_length, sort_by_index_perm. Qed.

Lemma insert_by_index_sorted (x : entry) (l : list entry) :
  StronglySorted index_le l → StronglySorted index_le (insert_by_index x l).
Proof.
  induction 1 as [|y l Hl IH Hy]; simpl.
  - repeat constructor.
  - destruct (Z.leb_spec (index x) (index y)) as [Hxy|Hxy].
    + constructor; [now constructor|].
      constructor; [exact Hxy|].
      eapply Forall_impl; [exact Hy|]. unfold index_le. intros; lia.
    + constructor; [exact IH|].
      rewrite insert_by_index_perm. constructor; [|exact Hy].
      unfold index_le. lia.
Qed.

Lemma sort_by_index_sorted (l : list entry) :
  StronglySorted index_le (sort_by_index l).
Proof.
  induction l as [|x l IH]; simpl;
    [constructor | now apply insert_by_index_sorted].
Qed.

(** An entry that is not above any entry of [l2] stops in front of [l2]. *)
Lemma insert_by_index_app (x : entry) (l1 l2 : list entry) :
  Forall (index_le x) l2 →
  insert_by_index x (l1 ++ l2) = insert_by_index x l1 ++ l2.
Proof.
  intros H2. induction l1 as [|y l1 IH]; simpl.
  - destruct H2 as [|z l2 Hz _]; simpl; [reflexivity|].
    unfold index_le in Hz. apply Z.leb_le in Hz. now rewrite Hz.
  - destruct (index x <=? index y); [reflexivity | now rewrite IH].
Qed.

(** Appending entries that are not below any stored one leaves the sorted
    prefix where it was. *)
Lemma sort_by_index_app (l1 l2 : list entry) :
  Forall (λ a, Forall (index_le a) l2) l1 →
  sort_by_index (l1 ++ l2) = sort_by_index l1 ++ sort_by_index l2.
Proof.
  induction 1 as [|x l1 Hx _ IH]; simpl; [reflexivity|].
  rewrite IH. apply insert_by_index_app.
  now rewrite sort_by_index_perm.
Qed.

(** A list whose indices are pairwise distinct has one sorted order. *)
Lemma sort_by_index_unique (l sorted : list entry) :
  NoDup (index <$> sorted) →
  StronglySorted index_le sorted →
  l ≡ₚ sorted →
  sort_by_index l = sorted.
Proof.
  intros Hnd Hs Hp.
  apply (StronglySorted_unique_strong index_le);
    [|apply sort_by_index_sorted|exact Hs|now rewrite sort_by_index_perm].
  intros a b Ha Hb Hab Hba.
  rewrite sort_by_index_perm, Hp in Ha.
  assert (Hi : index a = index b) by (unfold index_le in *; lia).
  clear Hab Hba Hs Hp. induction sorted as [|c s IH]; [inversion Ha|].
  simpl in Hnd. apply NoDup_cons in Hnd as [Hc Hnd].
  apply elem_of_cons in Ha as [->|Ha], Hb as [->|Hb]; auto.
  - exfalso. apply Hc. rewrite Hi. now apply list_elem_of_fmap_2.
  - exfalso. apply Hc. rewrite <- Hi. now apply list_elem_of_fmap_2.
Qed.

(** ** The loop *)

Lemma for_loop_run (toks : list entry) (end_ : Z) (fuel : nat) :
  ∀ (i : Z) (data : string),
    0 ≤ i → end_ ≤ Z.of_nat (length toks) →
    (Z.to_nat (end_ - i) ≤ fuel)%nat →
    for_loop fuel toks end_ i data =
      Some (Ret (data +:+ text_of (take (Z.to_nat (end_ - i))
                                        (drop (Z.to_nat i) toks)))).
Proof.
  induction fuel as [|fuel IH]; intros i data Hi Hend Hfuel; simpl.
  - destruct (Z.ltb_spec i end_); [lia|].
    replace (Z.to_nat (end_ - i)) with 0%nat by lia.
    simpl. now rewrite append_empty_r.
  - destruct (Z.ltb_spec i end_) as [Hlt|Hge].
    + unfold array_get. destruct (Z.ltb_spec i 0); [lia|].
      destruct (lookup_lt_is_Some_2 toks (Z.to_nat i)) as [e He]; [lia|].
      rewrite He, IH by lia.
      replace (Z.to_nat (end_ - i)) with (S (Z.to_nat (end_ - (i + 1)))) by lia.
      rewrite (drop_S _ _ _ He). simpl.
      replace (Z.to_nat (i + 1)) with (S (Z.to_nat i)) by lia.
      now rewrite append_assoc.
    + replace (Z.to_nat (end_ - i)) with 0%nat by lia.
      simpl. now rewrite append_empty_r.
Qed.

(** The fuel that [concat_from] supplies is never used up. *)
Lemma for_loop_fuel (toks : list entry) (end_ : Z) (fuel : nat) :
  ∀ (i : Z) (data : string),
    (Z.to_nat (end_ - i) ≤ fuel)%nat →
    is_Some (for_loop fuel toks end_ i data).
Proof.
  induction fuel as [|fuel IH]; intros i data Hfuel; simpl.
  - destruct (Z.ltb_spec i end_); [lia | eauto].
  - destruct (Z.ltb_spec i end_); [|eauto].
    destruct (array_get toks i); [|eauto].
    apply IH. lia.
Qed.


(** ** The reader on a record that is not terminal *)

(** Expose the store read with which the reader begins. *)
Ltac run_get := unfold get_handler, bind, conversationKV_get.

Lemma concat_from_drop (l : list entry) (k : Z) :
  0 ≤ k →
  concat_from l (Z.of_nat (length l)) k = Ret (text_of (drop (Z.to_nat k) l)).
Proof.
  intros Hk. unfold concat_from.
  rewrite for_loop_run by lia. simpl.
  rewrite take_ge; [reflexivity|].
  rewrite length_drop. lia.
Qed.

Lemma concat_from_negative (l : list entry) (k : Z) :
  k < 0 → concat_from l (Z.of_nat (length l)) k = Throw TypeError.
Proof.
  intros Hk. unfold concat_from.
  destruct (Z.to_nat (Z.of_nat (length l) - k)) as [|fuel] eqn:E; [lia|].
  simpl. destruct (Z.ltb_spec k (Z.of_nat (length l))); [|lia].
  unfold array_get. destruct (Z.ltb_spec k 0); [reflexivity | lia].
Qed.

Lemma for_loop_settles (l : list entry) (end_ : Z) (fuel : nat) :
  ∀ (i : Z) (data : string), for_loop fuel l end_ i data ≠ Some Waiting.
Proof.
  induction fuel as [|fuel IH]; intros i data; simpl.
  - destruct (i <? end_); discriminate.
  - destruct (i <? end_); [|discriminate].
    destruct (array_get l i); [apply IH | discriminate].
Qed.

Lemma concat_from_total (l : list entry) (end_ k : Z) :
  concat_from l end_ k ≠ Waiting.
Proof.
  unfold concat_from.
  destruct (for_loop_fuel l end_ (Z.to_nat (end_ - k)) k "") as [o Ho]; [lia|].
  rewrite Ho. intros ->. now apply for_loop_settles in Ho.
Qed.

Lemma terminal_false (r : props) :
  terminal r = false →
  truthy_error (error r) = false ∧ truthy_done (done r) = false.
Proof. unfold terminal. intros H. now apply orb_false_iff in H. Qed.

Lemma get_handler_partial (id : string) (k : Z) (w : world) (r : props)
    (toks : list entry) :
  kv w !! id = Some r → terminal r = false → tokens r = Some toks → 0 ≤ k →
  get_handler id (Some k) w =
    (Ret (Partial (Z.of_nat (length toks))
                  (text_of (drop (Z.to_nat k) (sort_by_index toks)))),
     logged (OpGet id) w).
Proof.
  intros Hr Ht Htoks Hk. apply terminal_false in Ht as [He Hd].
  run_get. rewrite Hr.
  destruct (error r) as [[|c m]|]; try discriminate;
    rewrite Hd, Htoks; simpl;
    rewrite <- (sort_by_index_length toks), concat_from_drop by lia;
    reflexivity.
Qed.

Lemma get_handler_default (id : string) (w : world) :
  get_handler id None w = get_handler id (Some 0) w.
Proof. reflexivity. Qed.

(** The reader never writes. *)
Lemma get_handler_read_only (id : string) (nextID : option Z) (w : world) :
  snd (get_handler id nextID w) = logged (OpGet id) w.
Proof.
  run_get; simpl.
  destruct (kv w !! id) as [r|]; [|reflexivity].
  destruct (error r) as [[|c m]|]; try reflexivity;
    (destruct (truthy_done (done r)); [reflexivity|];
     destruct (tokens r) as [toks|]; [|reflexivity];
     destruct (concat_from _ _ _); reflexivity).
Qed.

(** ** What one producer writes *)

Lemma number_from_text (l : list string) :
  ∀ i, text_of (number_from i l) = concat_strings l.
Proof.
  induction l as [|t l IH]; intros i; simpl; [reflexivity|].
  now rewrite IH.
Qed.

Lemma number_from_length (l : list string) :
  ∀ i, length (number_from i l) = length l.
Proof.
  induction l as [|t l IH]; intros i; simpl; [reflexivity|].
  now rewrite IH.
Qed.

Lemma number_from_lower (l : list string) :
  ∀ i, Forall (λ e, i ≤ index e) (number_from i l).
Proof.
  induction l as [|t l IH]; intros i; simpl; constructor; simpl; [lia|].
  eapply Forall_impl; [apply IH|]. simpl. intros; lia.
Qed.

Lemma number_from_sorted (l : list string) :
  ∀ i, StronglySorted index_le (number_from i l).
Proof.
  induction l as [|t l IH]; intros i; simpl; constructor; [apply IH|].
  eapply Forall_impl; [apply number_from_lower|].
  unfold index_le. simpl. intros; lia.
Qed.

Lemma number_from_nodup (l : list string) :
  ∀ i, NoDup (index <$> number_from i l).
Proof.
  induction l as [|t l IH]; intros i; simpl; constructor; [|apply IH].
  intros Hin. apply list_elem_of_fmap in Hin as (e & He & Hin).
  pose proof (number_from_lower l (i + 1)) as Hlow.
  rewrite Forall_forall in Hlow. apply Hlow in Hin. lia.
Qed.

Lemma onProgress_first (id : string) (now : Z) (tok : string) (w : world) :
  onProgress id now tok fresh_closure w =
    (Ret {| conversationStart := false; conversationCount := 1 |},
     {| kv := <[id := first_record now tok]> (kv w);
        ops := ops w ++ [OpSet id (first_record now tok)] |}).
Proof. reflexivity. Qed.

Lemma onProgress_append (id : string) (now : Z) (tok : string) (c : closure)
    (w : world) (r : props) (toks : list entry) :
  conversationStart c = false →
  kv w !! id = Some r →
  tokens r = Some toks →
  let toks' := toks ++ [Entry (conversationCount c + 1) tok] in
  onProgress id now tok c w =
    (Ret {| conversationStart := false;
            conversationCount := conversationCount c + 1 |},
     {| kv := <[id := with_tokens r toks']> (kv w);
        ops := ops w ++ [OpGet id; OpSet id (only_tokens toks')] |}).
Proof.
  intros Hc Hr Ht. unfold onProgress.
  rewrite Hc. unfold bind, waitConversationKV, conversationKV_get, bind.
  rewrite Hr. unfold ret. rewrite Ht.
  unfold conversationKV_set; simpl. rewrite Hr; simpl.
  now rewrite <- app_assoc.
Qed.

Lemma feed_appends (id : string) (events : list (Z * string)) :
  ∀ (c : closure) (w : world) (r : props) (toks : list entry),
    conversationStart c = false →
    kv w !! id = Some r →
    tokens r = Some toks →
    ∃ c' w',
      feed (onProgress id) events c w = (Ret c', w') ∧
      conversationStart c' = false ∧
      conversationCount c' = conversationCount c + Z.of_nat (length events) ∧
      kv w' !! id =
        Some (with_tokens r
                (toks ++ number_from (conversationCount c + 1) events.*2)).
Proof.
  induction events as [|[now tok] rest IH]; intros c w r toks Hc Hr Ht.
  - exists c, w. simpl. rewrite app_nil_r.
    split; [reflexivity|]. split; [exact Hc|]. split; [lia|].
    rewrite Hr. destruct r; simpl in *. now subst.
  - simpl. unfold bind.
    rewrite (onProgress_append id now tok c w r toks Hc Hr Ht).
    set (toks1 := toks ++ [Entry (conversationCount c + 1) tok]).
    match goal with
    | |- context [feed _ rest ?c1 ?w1] =>
        destruct (IH c1 w1 (with_tokens r toks1) toks1)
          as (c' & w' & Hfeed & Hc' & Hn & Hr');
        [reflexivity | apply lookup_insert_eq | reflexivity |]
    end.
    exists c', w'. rewrite Hfeed. subst toks1. simpl in *.
    split; [reflexivity|]. split; [exact Hc'|]. split; [lia|].
    rewrite Hr'. unfold with_tokens; simpl. now rewrite <- app_assoc.
Qed.

Lemma feed_fresh (id : string) (now : Z) (tok : string)
    (rest : list (Z * string)) (w : world) :
  ∃ c' w',
    feed (onProgress id) ((now, tok) :: rest) fresh_closure w = (Ret c', w') ∧
    conversationStart c' = false ∧
    conversationCount c' = Z.of_nat (length ((now, tok) :: rest)) ∧
    kv w' !! id =
      Some (with_tokens (first_record now tok)
              (number_from 1 (tok :: rest.*2))).
Proof.
  cbn [feed]. unfold bind. rewrite onProgress_first.
  match goal with
  | |- context [feed _ rest ?c1 ?w1] =>
      destruct (feed_appends id rest c1 w1 (first_record now tok)
                  [Entry 1 tok])
        as (c' & w' & Hfeed & Hc' & Hn & Hr');
      [reflexivity | apply lookup_insert_eq | reflexivity |]
  end.
  exists c', w'. rewrite Hfeed. simpl in *.
  split; [reflexivity|]. split; [exact Hc'|]. split; [lia | exact Hr'].
Qed.

Lemma get_handler_absent (id : string) (nextID : option Z) (w : world) :
  kv w !! id = None →
  get_handler id nextID w = (Ret (ErrorEvent not_found), logged (OpGet id) w).
Proof. intros Hr. run_get. now rewrite Hr. Qed.

(** A negative lastIndex makes the first test of the loop succeed and the
    read of [tokens[index].token] throw. *)
Lemma get_handler_negative (id : string) (k : Z) (w : world) (r : props)
    (toks : list entry) :
  kv w !! id = Some r → terminal r = false → tokens r = Some toks → k < 0 →
  fst (get_handler id (Some k) w) = Throw TypeError.
Proof.
  intros Hr Ht Htoks Hk. apply terminal_false in Ht as [He Hd].
  run_get. rewrite Hr.
  destruct (error r) as [[|c m]|]; try discriminate;
    rewrite Hd, Htoks; simpl;
    rewrite <- (sort_by_index_length toks), concat_from_negative by lia;
    reflexivity.
Qed.

Lemma get_handler_error (id : string) (nextID : option Z) (w : world)
    (r : props) (c : Z) (m : string) :
  kv w !! id = Some r → error r = Some (ErrInfo c m) →
  get_handler id nextID w = (Ret (ErrorEvent (ErrInfo c m)), logged (OpGet id) w).
Proof.
  intros Hr He. run_get. now rewrite Hr, He.
Qed.

Lemma get_handler_done (id : string) (nextID : option Z) (w : world)
    (r : props) :
  kv w !! id = Some r → truthy_error (error r) = false → done r = Some true →
  get_handler id nextID w = (Ret (ResultEvent (result r)), logged (OpGet id) w).
Proof.
  intros Hr He Hd. run_get.
  rewrite Hr, Hd. destruct (error r) as [[|c m]|]; try discriminate; reflexivity.
Qed.

(** ** The claims about the reader *)

(** C1. After one producer has appended the tokens of a non-empty sequence
    for a conversation id, the stored token list numbers them 1, 2, ... and
    the record is not terminal; whatever the order in which that list is
    stored, a read with lastIndex 0 (given or defaulted) answers with the
    number of tokens and with the text of all tokens in index order. *)
Theorem full_text_in_index_order (id : string) (events : list (Z * string))
    (w0 : world) :
  events ≠ [] →
  ∃ (c : closure) (w1 : world) (r : props) (toks : list entry),
    feed (onProgress id) events fresh_closure w0 = (Ret c, w1) ∧
    kv w1 !! id = Some r ∧
    tokens r = Some toks ∧
    toks = number_from 1 events.*2 ∧
    terminal r = false ∧
    ∀ (stored : list entry) (w : world) (nextID : option Z),
      stored ≡ₚ toks →
      kv w !! id = Some (with_tokens r stored) →
      nextID = Some 0 ∨ nextID = None →
      fst (get_handler id nextID w) =
        Ret (Partial (Z.of_nat (length events)) (concat_strings events.*2)).
Proof.
  destruct events as [|[now tok] rest]; [congruence|]. intros _.
  destruct (feed_fresh id now tok rest w0) as (c & w1 & Hfeed & _ & _ & Hr).
  exists c, w1, (with_tokens (first_record now tok)
                   (number_from 1 (tok :: rest.*2))),
    (number_from 1 (tok :: rest.*2)).
  split; [exact Hfeed|]. split; [exact Hr|].
  do 3 (split; [reflexivity|]).
  intros stored w nextID Hperm Hw Hnext.
  assert (Hget : get_handler id nextID w = get_handler id (Some 0) w)
    by (destruct Hnext as [->| ->]; reflexivity).
  rewrite Hget.
  rewrite (get_handler_partial id 0 w _ stored Hw) by (reflexivity || lia).
  cbn [fst]. change (Z.to_nat 0) with 0%nat. rewrite drop_0.
  rewrite (sort_by_index_unique stored _ (number_from_nodup _ 1)
             (number_from_sorted _ 1) Hperm).
  rewrite number_from_text, (Permutation_length Hperm), number_from_length.
  change ((((now, tok) :: rest).*2)) with (tok :: rest.*2).
  now rewrite <- (length_fmap snd ((now, tok) :: rest)).
Qed.

Lemma full_text_in_index_order_witness :
  ∃ (c : closure) (w1 : world) (r : props) (toks : list entry),
    feed (onProgress "c") hello_events fresh_closure empty_world = (Ret c, w1) ∧
    kv w1 !! "c" = Some r ∧
    tokens r = Some toks ∧
    toks = number_from 1 hello_events.*2 ∧
    terminal r = false ∧
    ∀ (stored : list entry) (w : world) (nextID : option Z),
      stored ≡ₚ toks →
      kv w !! "c" = Some (with_tokens r stored) →
      nextID = Some 0 ∨ nextID = None →
      fst (get_handler "c" nextID w) =
        Ret (Partial (Z.of_nat (length hello_events))
               (concat_strings hello_events.*2)).
Proof. apply (full_text_in_index_order "c" hello_events empty_world). discriminate. Defined.

(** C2, as amended. For a record that is not terminal and a lastIndex [k]
    between 0 and the number of stored tokens: a read at [k], then further
    appends by the producer (whose counter is not below any stored index),
    then a read at the next-index of the first read. The first read
    delivers the entries at positions [k] up to its next-index of the final
    index order, the second delivers the entries from that next-index on,
    and together they are the text from position [k] to the end. *)
Theorem progress_between_reads (id : string) (w : world) (r : props)
    (toks : list entry) (k : Z) (c : closure) (events : list (Z * string)) :
  kv w !! id = Some r →
  terminal r = false →
  tokens r = Some toks →
  0 ≤ k ≤ Z.of_nat (length toks) →
  conversationStart c = false →
  Forall (λ a, index a ≤ conversationCount c) toks →
  ∃ (d1 : string) (w1 : world) (c' : closure) (w2 : world)
    (all : list entry) (d2 : string) (w3 : world),
    get_handler id (Some k) w = (Ret (Partial (Z.of_nat (length toks)) d1), w1) ∧
    feed (onProgress id) events c w1 = (Ret c', w2) ∧
    kv w2 !! id ≫= tokens = Some all ∧
    get_handler id (Some (Z.of_nat (length toks))) w2 =
      (Ret (Partial (Z.of_nat (length all)) d2), w3) ∧
    d1 = text_of (take (length toks - Z.to_nat k)
                       (drop (Z.to_nat k) (sort_by_index all))) ∧
    d2 = text_of (drop (length toks) (sort_by_index all)) ∧
    d1 +:+ d2 = text_of (drop (Z.to_nat k) (sort_by_index all)).
Proof.
  intros Hr Hterm Htoks Hk Hc Hmax.
  set (extra := number_from (conversationCount c + 1) events.*2).
  destruct (feed_appends id events c (logged (OpGet id) w) r toks Hc Hr Htoks)
    as (c' & w2 & Hfeed & _ & _ & Hr2).
  fold extra in Hr2.
  assert (Hsort : sort_by_index (toks ++ extra) =
                  sort_by_index toks ++ sort_by_index extra).
  { apply sort_by_index_app. eapply Forall_impl; [exact Hmax|].
    intros a Ha. eapply Forall_impl; [apply number_from_lower|].
    unfold index_le. simpl in *. intros; lia. }
  pose proof (sort_by_index_length toks) as Hlen.
  eexists _, _, c', w2, (toks ++ extra), _, _.
  split; [apply (get_handler_partial id k w r toks Hr Hterm Htoks); lia|].
  split; [exact Hfeed|].
  split; [now rewrite Hr2|].
  split; [apply (get_handler_partial id _ w2 _ (toks ++ extra) Hr2);
          [exact Hterm | reflexivity | lia]|].
  rewrite Nat2Z.id, Hsort.
  rewrite (drop_app_le _ _ (Z.to_nat k)) by lia.
  assert (Htake : take (length toks - Z.to_nat k)
                    (drop (Z.to_nat k) (sort_by_index toks)
                     ++ sort_by_index extra) =
                  drop (Z.to_nat k) (sort_by_index toks)).
  { apply take_app_length'. rewrite length_drop. lia. }
  assert (Hdrop : drop (length toks) (sort_by_index toks ++ sort_by_index extra)
                  = sort_by_index extra).
  { apply drop_app_length'. lia. }
  rewrite Htake, Hdrop.
  split; [reflexivity|]. split; [reflexivity|].
  now rewrite text_of_app.
Qed.

Lemma progress_between_reads_witness :
  ∃ (d1 : string) (w1 : world) (c' : closure) (w2 : world)
    (all : list entry) (d2 : string) (w3 : world),
    get_handler "c" (Some 1) (world_with one_token_record) =
      (Ret (Partial (Z.of_nat (length [Entry 1 "a"])) d1), w1) ∧
    feed (onProgress "c") four_more after_one w1 = (Ret c', w2) ∧
    kv w2 !! "c" ≫= tokens = Some all ∧
    get_handler "c" (Some (Z.of_nat (length [Entry 1 "a"]))) w2 =
      (Ret (Partial (Z.of_nat (length all)) d2), w3) ∧
    d1 = text_of (take (length [Entry 1 "a"] - Z.to_nat 1)
                       (drop (Z.to_nat 1) (sort_by_index all))) ∧
    d2 = text_of (drop (length [Entry 1 "a"]) (sort_by_index all)) ∧
    d1 +:+ d2 = text_of (drop (Z.to_nat 1) (sort_by_index all)).
Proof.
  apply (progress_between_reads "c" (world_with one_token_record)
           one_token_record [Entry 1 "a"] 1 after_one four_more).
  - reflexivity.
  - reflexivity.
  - reflexivity.
  - simpl; lia.
  - reflexivity.
  - repeat constructor; simpl; lia.
Defined.

(** C2 as stated fails for a lastIndex beyond the stored tokens: with one
    token stored, a read at lastIndex 3 delivers nothing and answers
    next-index 1; after four more appends the read at 1 delivers "bcde",
    while the tokens from position 3 to the end are "de". *)
Lemma progress_beyond_end_counterexample :
  fst (get_handler "c" (Some 3) (world_with one_token_record)) =
    Ret (Partial 1 "") ∧
  fst (get_handler "c" (Some 1)
         (snd (feed (onProgress "c") four_more after_one
                 (snd (get_handler "c" (Some 3) (world_with one_token_record))))))
    = Ret (Partial 5 "bcde") ∧
  text_of (drop 3 (sort_by_index
                     (number_from 1 ["a"; "b"; "c"; "d"; "e"]))) = "de" ∧
  "" +:+ "bcde" ≠ "de".
Proof. vm_compute. repeat split; discriminate. Qed.

Lemma above_number_from (l : list string) :
  ∀ (i k : Z),
    filter (λ e, k < index e) (number_from i l) =
    drop (Z.to_nat (k - (i - 1))) (number_from i l).
Proof.
  induction l as [|t l IH]; intros i k; simpl.
  - now rewrite drop_nil.
  - rewrite filter_cons. simpl.
    destruct (decide (k < i)) as [Hlt|Hge].
    + replace (Z.to_nat (k - (i - 1))) with 0%nat by lia.
      rewrite drop_0. f_equal.
      rewrite IH.
      replace (Z.to_nat (k - (i + 1 - 1))) with 0%nat by lia.
      apply drop_0.
    + replace (Z.to_nat (k - (i - 1))) with (S (Z.to_nat (k - (i + 1 - 1))))
        by lia.
      rewrite IH. reflexivity.
Qed.

(** C3, as amended. For a record that is not terminal and a lastIndex
    [k ≥ 0], the reply is the partial variant whose next-index is the number
    of stored tokens and whose text is that of the entries from position
    [k] (counted from 0) of the index order on; lastIndex defaults to 0;
    and when the record holds what one producer wrote, tokens numbered
    1, 2, ..., these are the entries whose index is strictly greater than
    [k]. *)
Theorem partial_reply_by_position (id : string) (w : world) (r : props)
    (toks : list entry) (k : Z) :
  kv w !! id = Some r →
  terminal r = false →
  tokens r = Some toks →
  0 ≤ k →
  get_handler id (Some k) w =
    (Ret (Partial (Z.of_nat (length toks))
                  (text_of (drop (Z.to_nat k) (sort_by_index toks)))),
     logged (OpGet id) w) ∧
  get_handler id None w = get_handler id (Some 0) w ∧
  ∀ texts : list string,
    toks ≡ₚ number_from 1 texts →
    drop (Z.to_nat k) (sort_by_index toks) = above k toks.
Proof.
  intros Hr Hterm Htoks Hk.
  split; [now apply (get_handler_partial id k w r toks)|].
  split; [reflexivity|].
  intros texts Hperm. unfold above.
  rewrite (sort_by_index_unique toks _ (number_from_nodup _ 1)
             (number_from_sorted _ 1) Hperm).
  rewrite above_number_from.
  now replace (k - (1 - 1)) with k by lia.
Qed.

Lemma partial_reply_by_position_witness :
  get_handler "c" (Some 1) (world_with hello_record) =
    (Ret (Partial (Z.of_nat (length [Entry 1 "Hel"; Entry 2 "lo"]))
                  (text_of (drop (Z.to_nat 1)
                              (sort_by_index [Entry 1 "Hel"; Entry 2 "lo"])))),
     logged (OpGet "c") (world_with hello_record)) ∧
  get_handler "c" None (world_with hello_record) =
    get_handler "c" (Some 0) (world_with hello_record) ∧
  ∀ texts : list string,
    [Entry 1 "Hel"; Entry 2 "lo"] ≡ₚ number_from 1 texts →
    drop (Z.to_nat 1) (sort_by_index [Entry 1 "Hel"; Entry 2 "lo"]) =
    above 1 [Entry 1 "Hel"; Entry 2 "lo"].
Proof.
  apply (partial_reply_by_position "c" (world_with hello_record) hello_record
           [Entry 1 "Hel"; Entry 2 "lo"] 1).
  - reflexivity.
  - reflexivity.
  - reflexivity.
  - lia.
Defined.

(** C3 as stated fails: with the tokens (1, "Hel") and (2, "lo") stored, a
    read at lastIndex 1 answers "lo", whereas the entries whose index is
    greater than or equal to 1 spell "Hello". *)
Lemma index_at_least_counterexample :
  fst (get_handler "c" (Some 1) (world_with hello_record)) =
    Ret (Partial 2 "lo") ∧
  spec_partial_text [Entry 1 "Hel"; Entry 2 "lo"] 1 = "Hello" ∧
  fst (get_handler "c" (Some 1) (world_with hello_record)) ≠
    Ret (Partial 2 (spec_partial_text [Entry 1 "Hel"; Entry 2 "lo"] 1)).
Proof. vm_compute. repeat split; discriminate. Qed.

(** C5. For a record whose [done] is true or whose [error] is set, a read
    at any lastIndex returns the terminal variant that the record calls
    for, the error when [error] is set and the result otherwise, and never
    the partial variant. *)
Theorem terminal_reply (id : string) (nextID : option Z) (w : world)
    (r : props) :
  kv w !! id = Some r →
  terminal r = true →
  (∀ c m, error r = Some (ErrInfo c m) →
     fst (get_handler id nextID w) = Ret (ErrorEvent (ErrInfo c m))) ∧
  (truthy_error (error r) = false →
     fst (get_handler id nextID w) = Ret (ResultEvent (result r))) ∧
  (∃ rep, fst (get_handler id nextID w) = Ret rep ∧
          ∀ i d, rep ≠ Partial i d).
Proof.
  intros Hr Hterm. unfold terminal in Hterm.
  split; [|split].
  - intros c m He. now rewrite (get_handler_error id nextID w r c m).
  - intros He. rewrite He in Hterm. simpl in Hterm.
    destruct (done r) as [[|]|] eqn:Hd; try discriminate.
    now rewrite (get_handler_done id nextID w r).
  - destruct (error r) as [[|c m]|] eqn:He.
    + simpl in Hterm. destruct (done r) as [[|]|] eqn:Hd; try discriminate.
      exists (ResultEvent (result r)). split; [|discriminate].
      rewrite (get_handler_done id nextID w r); auto. now rewrite He.
    + exists (ErrorEvent (ErrInfo c m)). split; [|discriminate].
      now rewrite (get_handler_error id nextID w r c m).
    + simpl in Hterm. destruct (done r) as [[|]|] eqn:Hd; try discriminate.
      exists (ResultEvent (result r)). split; [|discriminate].
      rewrite (get_handler_done id nextID w r); auto. now rewrite He.
Qed.

Lemma terminal_reply_witness :
  (∀ c m, error (only_error (ErrInfo 503 "x")) = Some (ErrInfo c m) →
     fst (get_handler "c" (Some 7) (world_with (only_error (ErrInfo 503 "x"))))
     = Ret (ErrorEvent (ErrInfo c m))) ∧
  (truthy_error (error (only_error (ErrInfo 503 "x"))) = false →
     fst (get_handler "c" (Some 7) (world_with (only_error (ErrInfo 503 "x"))))
     = Ret (ResultEvent (result (only_error (ErrInfo 503 "x"))))) ∧
  (∃ rep,
     fst (get_handler "c" (Some 7) (world_with (only_error (ErrInfo 503 "x"))))
     = Ret rep ∧ ∀ i d, rep ≠ Partial i d).
Proof.
  apply (terminal_reply "c" (Some 7) (world_with (only_error (ErrInfo 503 "x")))
           (only_error (ErrInfo 503 "x"))).
  - reflexivity.
  - reflexivity.
Defined.

(** C9. When the store holds no record for the conversation id, a read
    answers with the error event whose payload carries code 404, and the
    store holds afterwards exactly what it held before: the read has issued
    one [get] and nothing else. *)
Theorem unknown_conversation_not_found (id : string) (nextID : option Z)
    (w : world) :
  kv w !! id = None →
  get_handler id nextID w =
    (Ret (ErrorEvent (ErrInfo 404 "conversationID not Found!")),
     {| kv := kv w; ops := ops w ++ [OpGet id] |}).
Proof. intros Hr. now rewrite (get_handler_absent id nextID w Hr). Qed.

Lemma unknown_conversation_not_found_witness :
  get_handler "c" None empty_world =
    (Ret (ErrorEvent (ErrInfo 404 "conversationID not Found!")),
     {| kv := kv empty_world; ops := ops empty_world ++ [OpGet "c"] |}).
Proof. apply (unknown_conversation_not_found "c" None empty_world). reflexivity. Defined.

(** C10. The reader tests [error] before [done]: for a record in which
    [error] is set and [done] is true as well, whatever [result] holds,
    every read returns the error variant and not the result variant. *)
Theorem error_before_done (id : string) (nextID : option Z) (w : world)
    (r : props) (c : Z) (m : string) :
  kv w !! id = Some r →
  error r = Some (ErrInfo c m) →
  done r = Some true →
  fst (get_handler id nextID w) = Ret (ErrorEvent (ErrInfo c m)) ∧
  fst (get_handler id nextID w) ≠ Ret (ResultEvent (result r)).
Proof.
  intros Hr He Hd. rewrite (get_handler_error id nextID w r c m Hr He).
  split; [reflexivity | discriminate].
Qed.

Lemma error_before_done_witness :
  fst (get_handler "c" (Some 0)
         (world_with (Props (Some [Entry 1 "Hel"]) (Some true)
                        (Some (ErrInfo 503 "x"))
                        (Some (ResValue (JStr "Hello"))) None))) =
    Ret (ErrorEvent (ErrInfo 503 "x")) ∧
  fst (get_handler "c" (Some 0)
         (world_with (Props (Some [Entry 1 "Hel"]) (Some true)
                        (Some (ErrInfo 503 "x"))
                        (Some (ResValue (JStr "Hello"))) None))) ≠
    Ret (ResultEvent
           (result (Props (Some [Entry 1 "Hel"]) (Some true)
                      (Some (ErrInfo 503 "x"))
                      (Some (ResValue (JStr "Hello"))) None))).
Proof.
  apply (error_before_done "c" (Some 0) _ _ 503 "x"); reflexivity.
Defined.

(** ** The claims about the producer *)

(** C6. For a token after the first, when the record and its token list
    are there to be read: the call reads the record once and writes once,
    the object written names [tokens] only, and in the stored record
    [tokens] is the old list with the new entry at its end while [done],
    [result], [error] and [ttl] are what they were. *)
Theorem append_writes_tokens_only (id : string) (now : Z) (tok : string)
    (c : closure) (w : world) (r : props) (toks : list entry) :
  conversationStart c = false →
  kv w !! id = Some r →
  tokens r = Some toks →
  ∃ (c' : closure) (w' : world) (r' patch : props),
    onProgress id now tok c w = (Ret c', w') ∧
    ops w' = ops w ++ [OpGet id; OpSet id patch] ∧
    tokens patch = Some (toks ++ [Entry (conversationCount c + 1) tok]) ∧
    done patch = None ∧ result patch = None ∧ error patch = None ∧
    ttl patch = None ∧
    kv w' !! id = Some r' ∧
    tokens r' = tokens patch ∧
    done r' = done r ∧ result r' = result r ∧ error r' = error r ∧
    ttl r' = ttl r.
Proof.
  intros Hc Hr Ht.
  pose proof (onProgress_append id now tok c w r toks Hc Hr Ht) as Hrun.
  cbv zeta in Hrun.
  eexists _, _, (with_tokens r (toks ++ [Entry (conversationCount c + 1) tok])),
    (only_tokens (toks ++ [Entry (conversationCount c + 1) tok])).
  split; [exact Hrun|]. simpl.
  split; [reflexivity|].
  do 5 (split; [reflexivity|]).
  split; [apply lookup_insert_eq|].
  repeat split.
Qed.

Lemma append_writes_tokens_only_witness :
  ∃ (c' : closure) (w' : world) (r' patch : props),
    onProgress "c" 1700000000456 "lo" after_one
      (world_with (first_record 1700000000123 "Hel")) = (Ret c', w') ∧
    ops w' = ops (world_with (first_record 1700000000123 "Hel"))
             ++ [OpGet "c"; OpSet "c" patch] ∧
    tokens patch =
      Some ([Entry 1 "Hel"] ++ [Entry (conversationCount after_one + 1) "lo"]) ∧
    done patch = None ∧ result patch = None ∧ error patch = None ∧
    ttl patch = None ∧
    kv w' !! "c" = Some r' ∧
    tokens r' = tokens patch ∧
    done r' = done (first_record 1700000000123 "Hel") ∧
    result r' = result (first_record 1700000000123 "Hel") ∧
    error r' = error (first_record 1700000000123 "Hel") ∧
    ttl r' = ttl (first_record 1700000000123 "Hel").
Proof.
  apply (append_writes_tokens_only "c" 1700000000456 "lo" after_one
           (world_with (first_record 1700000000123 "Hel"))
           (first_record 1700000000123 "Hel") [Entry 1 "Hel"]);
    reflexivity.
Defined.

(** C7. On the first token the producer issues one store call, a [set] and
    no [get], and the record stored under the conversation id afterwards,
    whatever the store held before, has the single entry (1, token) as
    [tokens], [done] false, [error] false and as [ttl] the clock in whole
    seconds plus 600. *)
Theorem first_token_creates_record (id : string) (now : Z) (tok : string)
    (w : world) :
  ∃ (w' : world) (r : props),
    onProgress id now tok fresh_closure w =
      (Ret {| conversationStart := false; conversationCount := 1 |}, w') ∧
    ops w' = ops w ++ [OpSet id r] ∧
    kv w' !! id = Some r ∧
    tokens r = Some [Entry 1 tok] ∧
    done r = Some false ∧
    error r = Some ErrFalse ∧
    ttl r = Some (now / 1000 + 600).
Proof.
  eexists _, (first_record now tok).
  split; [apply onProgress_first|]. simpl.
  split; [reflexivity|].
  split; [apply lookup_insert_eq|].
  repeat split.
Qed.

(** ** The claims about the POST handler *)

(** Fed with any tokens, a fresh callback returns. *)
Lemma feed_returns (id : string) (events : list (Z * string)) (w : world) :
  ∃ c' w', feed (onProgress id) events fresh_closure w = (Ret c', w').
Proof.
  destruct events as [|[now tok] rest]; [now exists fresh_closure, w|].
  destruct (feed_fresh id now tok rest w) as (c' & w' & Hfeed & _).
  now exists c', w'.
Qed.

Lemma missing_text (text : string) : text ≠ "" → missing (Some text) = false.
Proof. intros H. simpl. now apply bool_decide_eq_false. Qed.

Lemma or_code_spec (v : option Z) :
  (∀ c, v = Some c → c ≠ 0 → or_code v 503 = c) ∧
  (v = None ∨ v = Some 0 → or_code v 503 = 503).
Proof.
  split.
  - intros c -> Hc. simpl. destruct (Z.eqb_spec c 0); [contradiction | reflexivity].
  - now intros [-> | ->].
Qed.

Lemma set_error_read (id : string) (e : Z) (m : string) (w : world)
    (nextID : option Z) :
  fst (get_handler id nextID
         (snd (conversationKV_set id (only_error (ErrInfo e m)) w))) =
    Ret (ErrorEvent (ErrInfo e m)).
Proof.
  erewrite get_handler_error; [reflexivity | apply lookup_insert_eq | reflexivity].
Qed.

(** C4, as amended. For a request without a usable [message]: when
    [stream] is not true, the handler answers with status 400 and the
    message 'The message parameter is required.' and issues no store call,
    so a read of an id that had no record still answers not-found; when
    [stream] is true, the handler ends the response and writes that error,
    code 400 with the same message, under the conversation id, and a read
    of the id answers with it. *)
Theorem missing_message_reported (clientToUse : string)
    (client : string → provider_run) (id : string) (b : body) (w : world) :
  missing (message b) = true →
  (stream b = false →
     post_handler clientToUse client id b w =
       (Ret (CodeSend 400 "The message parameter is required."), w) ∧
     (kv w !! id = None →
      ∀ nextID, fst (get_handler id nextID w) = Ret (ErrorEvent not_found))) ∧
  (stream b = true →
     ∃ w',
       post_handler clientToUse client id b w = (Ret RawEnd, w') ∧
       ops w' = ops w ++ [OpSet id (only_error
                  (ErrInfo 400 "The message parameter is required."))] ∧
       ∀ nextID,
         fst (get_handler id nextID w') =
           Ret (ErrorEvent (ErrInfo 400 "The message parameter is required."))).
Proof.
  intros Hm. split; intros Hs.
  - split.
    + unfold post_handler, bind. now rewrite Hm, Hs.
    + intros Hr nextID.
      now rewrite (get_handler_absent id nextID w Hr).
  - eexists. split; [|split].
    + unfold post_handler, bind. rewrite Hm, Hs. reflexivity.
    + reflexivity.
    + intros nextID.
      apply (set_error_read id 400 "The message parameter is required." w).
Qed.

Lemma missing_message_reported_witness :
  (stream (Body false None) = false →
     post_handler "chatgpt" (failing_client None) "c" (Body false None)
       empty_world =
       (Ret (CodeSend 400 "The message parameter is required."), empty_world) ∧
     (kv empty_world !! "c" = None →
      ∀ nextID,
        fst (get_handler "c" nextID empty_world) = Ret (ErrorEvent not_found))) ∧
  (stream (Body false None) = true →
     ∃ w',
       post_handler "chatgpt" (failing_client None) "c" (Body false None)
         empty_world = (Ret RawEnd, w') ∧
       ops w' = ops empty_world ++ [OpSet "c" (only_error
                  (ErrInfo 400 "The message parameter is required."))] ∧
       ∀ nextID,
         fst (get_handler "c" nextID w') =
           Ret (ErrorEvent (ErrInfo 400 "The message parameter is required."))).
Proof.
  apply (missing_message_reported "chatgpt" (failing_client None) "c"
           (Body false None) empty_world).
  reflexivity.
Defined.

(** C4 as stated fails when [stream] is true: the handler ends the response
    without a status 400, it writes to the store under the conversation id,
    and the read that follows answers with the error of code 400, not with
    not-found. *)
Lemma missing_message_stream_counterexample :
  fst (post_handler "chatgpt" (failing_client None) "c" (Body true None)
         empty_world) = Ret RawEnd ∧
  ops (snd (post_handler "chatgpt" (failing_client None) "c" (Body true None)
              empty_world)) =
    [OpSet "c" (only_error (ErrInfo 400 "The message parameter is required."))] ∧
  fst (get_handler "c" None
         (snd (post_handler "chatgpt" (failing_client None) "c"
                 (Body true None) empty_world))) =
    Ret (ErrorEvent (ErrInfo 400 "The message parameter is required.")) ∧
  fst (get_handler "c" None
         (snd (post_handler "chatgpt" (failing_client None) "c"
                 (Body true None) empty_world))) ≠
    Ret (ErrorEvent not_found).
Proof. vm_compute. repeat split; discriminate. Qed.

(** C8, as amended. When the provider call raises in streaming mode, the
    handler ends the response and the record under the conversation id
    holds an [error] made of a code and a message: the code is the one the
    raised error carries when it carries one other than 0, and 503 when it
    carries none or 0; every read of the id then answers with that
    error. *)
Theorem provider_failure_persisted (clientToUse : string)
    (client : string → provider_run) (id : string) (text : string)
    (e : js_error) (w : world) :
  text ≠ "" →
  settles (client text) = Rejects e →
  ∃ (w' : world) (r : props) (code : Z) (msg : string),
    post_handler clientToUse client id (Body true (Some text)) w =
      (Ret RawEnd, w') ∧
    kv w' !! id = Some r ∧
    error r = Some (ErrInfo code msg) ∧
    (∀ c, data e ≫= err_code = Some c → c ≠ 0 → code = c) ∧
    (data e ≫= err_code = None ∨ data e ≫= err_code = Some 0 → code = 503) ∧
    ∀ nextID,
      fst (get_handler id nextID w') = Ret (ErrorEvent (ErrInfo code msg)).
Proof.
  intros Htext Hfail.
  destruct (feed_returns id (progress (client text)) w) as (c1 & w1 & Hfeed).
  set (code := or_code (data e ≫= err_code) 503).
  set (msg := or_message (data e ≫= err_message)
                (communication_error clientToUse)).
  exists (snd (conversationKV_set id (only_error (ErrInfo code msg)) w1)),
    (upsert (default no_props (kv w1 !! id)) (only_error (ErrInfo code msg))),
    code, msg.
  split; [|split; [|split; [|split; [|split]]]].
  - unfold post_handler, bind. cbn [stream message default].
    rewrite (missing_text text Htext). unfold sendMessage.
    change (Datatypes.id text) with text.
    rewrite Hfeed, Hfail. reflexivity.
  - apply lookup_insert_eq.
  - reflexivity.
  - apply (or_code_spec (data e ≫= err_code)).
  - apply (or_code_spec (data e ≫= err_code)).
  - intros nextID. apply set_error_read.
Qed.

Lemma provider_failure_persisted_witness :
  ∃ (w' : world) (r : props) (code : Z) (msg : string),
    post_handler "chatgpt"
      (failing_client (Some (ErrData (Some 429) (Some "Too many requests"))))
      "c" (Body true (Some "hi")) empty_world = (Ret RawEnd, w') ∧
    kv w' !! "c" = Some r ∧
    error r = Some (ErrInfo code msg) ∧
    (∀ c, data (JsError (Some (ErrData (Some 429) (Some "Too many requests"))))
            ≫= err_code = Some c → c ≠ 0 → code = c) ∧
    (data (JsError (Some (ErrData (Some 429) (Some "Too many requests"))))
       ≫= err_code = None ∨
     data (JsError (Some (ErrData (Some 429) (Some "Too many requests"))))
       ≫= err_code = Some 0 → code = 503) ∧
    ∀ nextID,
      fst (get_handler "c" nextID w') = Ret (ErrorEvent (ErrInfo code msg)).
Proof.
  apply (provider_failure_persisted "chatgpt"
           (failing_client (Some (ErrData (Some 429) (Some "Too many requests"))))
           "c" "hi"
           (JsError (Some (ErrData (Some 429) (Some "Too many requests"))))
           empty_world).
  - discriminate.
  - reflexivity.
Defined.

(** C8 as stated fails for an attached code 0: the provider raises an error
    whose [data] carries code 0, and the stored error has code 503. *)
Lemma provider_code_zero_counterexample :
  kv (snd (post_handler "chatgpt"
             (failing_client (Some (ErrData (Some 0) (Some "x"))))
             "c" (Body true (Some "hi")) empty_world)) !! "c" ≫= error =
    Some (ErrInfo 503 "x") ∧
  ErrInfo 503 "x" ≠ ErrInfo 0 "x".
Proof. vm_compute. split; [reflexivity | discriminate]. Qed.

(** * Further properties of the handlers *)

(** ** The reader *)

(** The reply depends on the stored records alone. *)
Lemma get_handler_reply_kv (id : string) (nextID : option Z) (w w' : world) :
  kv w = kv w' → fst (get_handler id nextID w) = fst (get_handler id nextID w').
Proof.
  intros Hkv. run_get. rewrite Hkv.
  destruct (kv w' !! id) as [r|]; [|reflexivity].
  destruct (error r) as [[|c m]|]; try reflexivity;
    (destruct (truthy_done (done r)); [reflexivity|];
     destruct (tokens r) as [toks|]; [|reflexivity];
     destruct (concat_from _ _ _); reflexivity).
Qed.

(** X1. A read leaves every stored record as it was, and a read gives the
    same reply whether or not other reads, of this or of any other
    conversation, came before it. *)
Theorem repeated_reads_agree (id id' : string) (nextID nextID' : option Z)
    (w : world) :
  kv (snd (get_handler id' nextID' w)) = kv w ∧
  fst (get_handler id nextID (snd (get_handler id' nextID' w))) =
    fst (get_handler id nextID w).
Proof.
  assert (Hkv : kv (snd (get_handler id' nextID' w)) = kv w)
    by now rewrite get_handler_read_only.
  split; [exact Hkv | now apply get_handler_reply_kv].
Qed.

(** X2. On a record that is not terminal, a negative lastIndex makes the
    read throw a TypeError instead of replying; the store keeps what it
    held. *)
Theorem negative_lastIndex_throws (id : string) (k : Z) (w : world)
    (r : props) (toks : list entry) :
  kv w !! id = Some r →
  terminal r = false →
  tokens r = Some toks →
  k < 0 →
  fst (get_handler id (Some k) w) = Throw TypeError ∧
  kv (snd (get_handler id (Some k) w)) = kv w.
Proof.
  intros Hr Ht Htoks Hk. split.
  - now apply (get_handler_negative id k w r toks).
  - now rewrite get_handler_read_only.
Qed.

Lemma negative_lastIndex_throws_witness :
  fst (get_handler "c" (Some (-1)) (world_with hello_record)) = Throw TypeError ∧
  kv (snd (get_handler "c" (Some (-1)) (world_with hello_record))) =
    kv (world_with hello_record).
Proof.
  apply (negative_lastIndex_throws "c" (-1) (world_with hello_record)
           hello_record [Entry 1 "Hel"; Entry 2 "lo"]).
  - reflexivity.
  - reflexivity.
  - reflexivity.
  - lia.
Defined.

(** X3. On a record that is not terminal, a lastIndex at or beyond the
    number of stored tokens yields the partial reply with the empty text
    and with that number as next-index. *)
Theorem lastIndex_past_end_is_empty (id : string) (k : Z) (w : world)
    (r : props) (toks : list entry) :
  kv w !! id = Some r →
  terminal r = false →
  tokens r = Some toks →
  Z.of_nat (length toks) ≤ k →
  fst (get_handler id (Some k) w) = Ret (Partial (Z.of_nat (length toks)) "").
Proof.
  intros Hr Ht Htoks Hk.
  rewrite (get_handler_partial id k w r toks Hr Ht Htoks) by lia.
  cbn [fst]. rewrite drop_ge; [reflexivity|].
  rewrite sort_by_index_length. lia.
Qed.

Lemma lastIndex_past_end_is_empty_witness :
  fst (get_handler "c" (Some 2) (world_with hello_record)) =
    Ret (Partial (Z.of_nat (length [Entry 1 "Hel"; Entry 2 "lo"])) "").
Proof.
  apply (lastIndex_past_end_is_empty "c" 2 (world_with hello_record)
           hello_record [Entry 1 "Hel"; Entry 2 "lo"]).
  - reflexivity.
  - reflexivity.
  - reflexivity.
  - simpl; lia.
Defined.

(** X4. The first token of a producer starts the conversation afresh:
    whatever the store held under the id before, also a record that had
    ended in a result or an error, a read at the start of the stream
    afterwards yields the partial reply with next-index 1 and that token as
    text. *)
Theorem first_token_restarts_reads (id : string) (now : Z) (tok : string)
    (w : world) :
  fst (get_handler id None (snd (onProgress id now tok fresh_closure w))) =
    Ret (Partial 1 tok).
Proof.
  rewrite onProgress_first. cbn [snd].
  rewrite get_handler_default.
  erewrite get_handler_partial;
    [| apply lookup_insert_eq | reflexivity | reflexivity | lia].
  cbn [fst]. change (Z.to_nat 0) with 0%nat. rewrite drop_0.
  change (text_of (sort_by_index [Entry 1 tok])) with (tok +:+ "").
  now rewrite append_empty_r.
Qed.

(** ** The producer and the POST handler *)

Lemma or_message_spec (v : option string) (d : string) :
  (∀ m, v = Some m → m ≠ "" → or_message v d = m) ∧
  (v = None ∨ v = Some "" → or_message v d = d).
Proof.
  split.
  - intros m -> Hm. simpl. now rewrite bool_decide_eq_false_2.
  - now intros [-> | ->].
Qed.

Lemma communication_error_spec (name : string) :
  (name = "bing" →
   communication_error name = "There was an error communicating with Bing.") ∧
  (name ≠ "bing" →
   communication_error name = "There was an error communicating with ChatGPT.").
Proof.
  unfold communication_error. split; intros H.
  - now rewrite bool_decide_eq_true_2.
  - now rewrite bool_decide_eq_false_2.
Qed.

Lemma onProgress_other (id id' : string) (now : Z) (tok : string)
    (c : closure) (w : world) :
  id ≠ id' → kv (snd (onProgress id now tok c w)) !! id' = kv w !! id'.
Proof.
  intros Hne. unfold onProgress.
  destruct (conversationStart c).
  - simpl. now rewrite lookup_insert_ne.
  - unfold bind, waitConversationKV, conversationKV_get, bind. simpl.
    destruct (kv w !! id) as [r|]; simpl; [|reflexivity].
    destruct (tokens r) as [toks|]; simpl; [|reflexivity].
    now rewrite lookup_insert_ne.
Qed.

Lemma feed_other (id id' : string) (events : list (Z * string)) :
  id ≠ id' →
  ∀ (c : closure) (w : world),
    kv (snd (feed (onProgress id) events c w)) !! id' = kv w !! id'.
Proof.
  intros Hne. induction events as [|[now tok] rest IH]; intros c w;
    [reflexivity|].
  pose proof (onProgress_other id id' now tok c w Hne) as Hstep.
  simpl. unfold bind.
  destruct (onProgress id now tok c w) as [[c1| |] w1]; simpl in *;
    [now rewrite IH | exact Hstep | exact Hstep].
Qed.





(** X7. In stream mode, when the provider reports at least one token and
    then resolves with a result, the handler ends the response, and every
    read of the conversation afterwards, at any lastIndex, yields the result
    event with that result. *)
Theorem stream_success_is_read_back (name : string)
    (provider : string → provider_run) (id : string) (text : string)
    (res : json) (w : world) :
  text ≠ "" →
  progress (provider text) ≠ [] →
  settles (provider text) = Resolves (Some res) →
  ∃ w',
    post_handler name provider id (Body true (Some text)) w = (Ret RawEnd, w') ∧
    ∀ nextID,
      fst (get_handler id nextID w') = Ret (ResultEvent (Some (ResValue res))).
Proof.
  intros Htext Hprog Hres.
  destruct (progress (provider text)) as [|[now tok] rest] eqn:Hev;
    [congruence|].
  destruct (feed_fresh id now tok rest w) as (c1 & w1 & Hfeed & _ & _ & Hr1).
  eexists. split.
  - unfold post_handler, bind. cbn [stream message].
    rewrite (missing_text text Htext). unfold sendMessage.
    change (default "" (Some text)) with text.
    rewrite Hev, Hfeed, Hres. reflexivity.
  - intros nextID.
    erewrite get_handler_done;
      [| apply lookup_insert_eq | rewrite Hr1; reflexivity
       | rewrite Hr1; reflexivity].
    rewrite Hr1. reflexivity.
Qed.

Lemma stream_success_is_read_back_witness :
  ∃ w',
    post_handler "chatgpt" hello_client "c" (Body true (Some "hi"))
      (world_with failed_record) = (Ret RawEnd, w') ∧
    ∀ nextID,
      fst (get_handler "c" nextID w') =
        Ret (ResultEvent (Some (ResValue (JStr "Hello")))).
Proof.
  apply (stream_success_is_read_back "chatgpt" hello_client "c" "hi"
           (JStr "Hello") (world_with failed_record)).
  - discriminate.
  - discriminate.
  - reflexivity.
Defined.

(** X8. A request for one conversation id never changes what is stored
    under another id, in either mode and however the provider call goes. *)
Theorem other_conversations_untouched (name : string)
    (provider : string → provider_run) (id id' : string) (b : body)
    (w : world) :
  id ≠ id' →
  kv (snd (post_handler name provider id b w)) !! id' = kv w !! id'.
Proof.
  intros Hne. unfold post_handler, bind.
  destruct (missing (message b)).
  - simpl. destruct (stream b); simpl; [now rewrite lookup_insert_ne | reflexivity].
  - destruct (stream b).
    + unfold sendMessage.
      pose proof (feed_other id id' (progress (provider (default "" (message b))))
                    Hne fresh_closure w) as Hfeed.
      destruct (feed _ _ _ w) as [[c1| |] w1]; simpl in *.
      * destruct (settles _) as [[res|]|e]; simpl;
          now rewrite lookup_insert_ne.
      * now rewrite lookup_insert_ne.
      * exact Hfeed.
    + simpl. destruct (settles _) as [[res|]|e]; reflexivity.
Qed.

Lemma other_conversations_untouched_witness :
  kv (snd (post_handler "chatgpt" hello_client "d" (Body true (Some "hi"))
             (world_with failed_record))) !! "c" =
  kv (world_with failed_record) !! "c".
Proof.
  apply (other_conversations_untouched "chatgpt" hello_client "d" "c"
           (Body true (Some "hi")) (world_with failed_record)).
  discriminate.
Defined.




(** X11. The expiry time is stamped once: after a producer has handled any
    number of tokens, the first at clock reading [now], the record is not
    terminal and its [ttl] is still [now] in whole seconds plus 600,
    whatever the clock read at the later tokens. *)
Theorem ttl_is_that_of_first_token (id : string) (now : Z) (tok : string)
    (rest : list (Z * string)) (w : world) :
  ∃ c w' r,
    feed (onProgress id) ((now, tok) :: rest) fresh_closure w = (Ret c, w') ∧
    kv w' !! id = Some r ∧
    ttl r = Some (now / 1000 + 600) ∧
    terminal r = false.
Proof.
  destruct (feed_fresh id now tok rest w) as (c & w' & Hfeed & _ & _ & Hr).
  eexists c, w', _. split; [exact Hfeed|]. split; [exact Hr|].
  split; reflexivity.
Qed.

(** X12. In stream mode, a provider call that resolves without a result is
    recorded as a failure: the handler ends the response and every read of
    the conversation afterwards yields the error event with code 503 and
    the sentence about the communication error. *)
Theorem stream_undefined_result_is_an_error (name : string)
    (provider : string → provider_run) (id : string) (text : string)
    (w : world) :
  text ≠ "" →
  settles (provider text) = Resolves None →
  ∃ w',
    post_handler name provider id (Body true (Some text)) w = (Ret RawEnd, w') ∧
    ∀ nextID,
      fst (get_handler id nextID w') =
        Ret (ErrorEvent (ErrInfo 503 (communication_error name))).
Proof.
  intros Htext Hres.
  destruct (feed_returns id (progress (provider text)) w) as (c1 & w1 & Hfeed).
  eexists. split.
  - unfold post_handler, bind. cbn [stream message].
    rewrite (missing_text text Htext). unfold sendMessage.
    change (default "" (Some text)) with text.
    rewrite Hfeed, Hres. reflexivity.
  - intros nextID. apply set_error_read.
Qed.

Lemma stream_undefined_result_is_an_error_witness :
  ∃ w',
    post_handler "bing" (λ _, ProviderRun hello_events (Resolves None)) "c"
      (Body true (Some "hi")) empty_world = (Ret RawEnd, w') ∧
    ∀ nextID,
      fst (get_handler "c" nextID w') =
        Ret (ErrorEvent (ErrInfo 503 (communication_error "bing"))).
Proof.
  apply (stream_undefined_result_is_an_error "bing"
           (λ _, ProviderRun hello_events (Resolves None)) "c" "hi" empty_world).
  - discriminate.
  - reflexivity.
Defined.

(** * Properties of the start-up code *)

Lemma split_on_cons (sep : ascii) (s : string) :
  ∃ h t, split_on sep s = h :: t.
Proof.
  induction s as [|c s (h & t & IH)]; simpl; [eauto|].
  destruct (Ascii.eqb c sep); [eauto|]. rewrite IH. eauto.
Qed.

(** A string without the separator is a single piece. *)
Lemma split_on_whole (sep : ascii) (s : string) :
  has_char sep s = false → split_on sep s = [s].
Proof.
  induction s as [|c s IH]; simpl; [reflexivity|].
  intros H. apply orb_false_iff in H as [Hc Hs].
  now rewrite Hc, (IH Hs).
Qed.

(** Splitting distributes over an occurrence of the separator. *)
Lemma split_on_app (sep : ascii) (a b : string) :
  split_on sep (a +:+ String sep b) = split_on sep a ++ split_on sep b.
Proof.
  induction a as [|c a IH].
  - simpl. now rewrite Ascii.eqb_refl.
  - rewrite append_String. simpl. rewrite IH.
    destruct (Ascii.eqb c sep); [reflexivity|].
    destruct (split_on_cons sep a) as (h & t & ->). reflexivity.
Qed.

(** Joining the pieces with the separator gives the string back. *)
Lemma join_split_on (sep : ascii) (s : string) :
  join (String sep "") (split_on sep s) = s.
Proof.
  induction s as [|c s IH]; [reflexivity|]. simpl.
  destruct (Ascii.eqb_spec c sep) as [->|Hne].
  - destruct (split_on_cons sep s) as (h & t & E). rewrite E in *.
    change (join (String sep "") ("" :: h :: t))
      with ("" +:+ String sep "" +:+ join (String sep "") (h :: t)).
    now rewrite IH.
  - destruct (split_on_cons sep s) as (h & t & E). rewrite E in *.
    destruct t as [|h' t]; simpl in *; [now rewrite IH|].
    now rewrite <- IH.
Qed.

(** X13. When the first argument that starts with [--settings] consists of
    a part without ['='], an ['='], and a value without ['='] that ends the
    argument or is followed by another ['='], the settings path is that
    value: what comes after a second ['='] is dropped. *)
Theorem settings_path_is_first_value (argv : list string)
    (flag value tail : string) :
  List.find (String.prefix "--settings") argv =
    Some (flag +:+ "=" +:+ value +:+ tail) →
  has_char "=" flag = false →
  has_char "=" value = false →
  tail = "" ∨ (∃ more, tail = "=" +:+ more) →
  settings_path argv = Some value.
Proof.
  intros Hfind Hflag Hvalue Htail. unfold settings_path. rewrite Hfind.
  change (flag +:+ "=" +:+ value +:+ tail)
    with (flag +:+ String "=" (value +:+ tail)).
  rewrite split_on_app, (split_on_whole _ flag Hflag). simpl.
  destruct Htail as [-> | [more ->]].
  - now rewrite append_empty_r, (split_on_whole _ value Hvalue).
  - change (value +:+ "=" +:+ more) with (value +:+ String "=" more).
    now rewrite split_on_app, (split_on_whole _ value Hvalue).
Qed.

Lemma settings_path_is_first_value_witness :
  settings_path ["node"; "server.js"; "--settings=conf/a.js=x"] =
    Some "conf/a.js".
Proof.
  apply (settings_path_is_first_value
           ["node"; "server.js"; "--settings=conf/a.js=x"]
           "--settings" "conf/a.js" "=x").
  - reflexivity.
  - reflexivity.
  - reflexivity.
  - right. exists "x". reflexivity.
Defined.

(** X14. When the first argument that starts with [--settings] holds no
    ['='], the settings path is undefined: the default path is not used
    in its place. *)
Theorem settings_flag_without_value (argv : list string) (arg : string) :
  List.find (String.prefix "--settings") argv = Some arg →
  has_char "=" arg = false →
  settings_path argv = None.
Proof.
  intros Hfind Harg. unfold settings_path.
  now rewrite Hfind, (split_on_whole _ arg Harg).
Qed.

Lemma settings_flag_without_value_witness :
  settings_path ["node"; "server.js"; "--settings"] = None.
Proof.
  apply (settings_flag_without_value ["node"; "server.js"; "--settings"]
           "--settings").
  - reflexivity.
  - reflexivity.
Defined.

(** X15. The directory made for the storage file is the path up to its
    last ['/']: for a path [dir/file] whose [file] holds no ['/'] it is
    [dir], and for a path without any ['/'] it is the empty string. *)
Theorem storage_dir_is_parent (dir file : string) :
  has_char "/" file = false →
  storage_dir (dir +:+ "/" +:+ file) = dir ∧ storage_dir file = "".
Proof.
  intros Hfile. unfold storage_dir. split.
  - change (dir +:+ "/" +:+ file) with (dir +:+ String "/" file).
    rewrite split_on_app, (split_on_whole _ file Hfile).
    rewrite removelast_last. apply join_split_on.
  - now rewrite (split_on_whole _ file Hfile).
Qed.

Lemma storage_dir_is_parent_witness :
  storage_dir ("./cache/sub" +:+ "/" +:+ "file.json") = "./cache/sub" ∧
  storage_dir "file.json" = "".
Proof.
  apply (storage_dir_is_parent "./cache/sub" "file.json"). reflexivity.
Defined.

(** X16. The client named in the sentence about a communication error is
    the client that was instantiated: Bing when the Bing client was chosen,
    ChatGPT otherwise; and with no client configured, or only empty names,
    the ChatGPT client is chosen. *)
Theorem error_sentence_names_the_client (s : settings) :
  (client s = BingAIClient →
   communication_error (clientToUse s) =
     "There was an error communicating with Bing.") ∧
  (client s = ChatGPTClient →
   communication_error (clientToUse s) =
     "There was an error communicating with ChatGPT.") ∧
  ((apiOptions_clientToUse s = None ∨ apiOptions_clientToUse s = Some "") →
   (settings_clientToUse s = None ∨ settings_clientToUse s = Some "") →
   client s = ChatGPTClient).
Proof.
  unfold client.
  split; [|split].
  - destruct (bool_decide_reflect (clientToUse s = "bing")) as [H|H];
      [intros _; now apply communication_error_spec | discriminate].
  - destruct (bool_decide_reflect (clientToUse s = "bing")) as [H|H];
      [discriminate | intros _; now apply communication_error_spec].
  - intros Ha Hs. unfold clientToUse.
    rewrite (proj2 (or_message_spec _ _) Ha), (proj2 (or_message_spec _ _) Hs).
    reflexivity.
Qed.
